(** * AsyncQueue and DelayedOperation

    A shallow embedding of
    [Firestore/core/src/firebase/firestore/util/async_queue.cc]
    and the properties of its serial queue with cancellable delayed
    operations.

    The C++ objects are modelled by one machine state, [World]:
    the members of the single [AsyncQueue] instance, the heap of the
    [DelayedOperation::Data] objects shared through [std::shared_ptr], and
    the part of libdispatch the file talks to (the blocks handed to
    [dispatch_async_f], the timers armed with [dispatch_after_f], and the
    queue the calling code currently runs on).  Every member function is a
    computation in a state-and-failure monad over [World]; a failed
    assertion ends the computation with [Fatal].  Calls are taken as atomic:
    the dispatch queue is serial and data races between threads are not
    modelled. *)

From stdpp Require Import base list strings.


(** ** Data model *)

(** Modelled from the spec: [TimerId] is declared in the header, which is not
    part of the sources; it is "a small enumerated tag", taken here by its
    underlying number (the assertion message prints it with [%u]). *)
Definition TimerId := nat.

(** [Seconds]: the delay of a delayed operation.  Only stored, never
    inspected by the code under study. *)
Definition Seconds := Z.

(** Address of a [Data] object on the heap. *)
Definition addr := nat.

(** [class DelayedOperation]: a handle whose only member is the shared
    pointer [data_].  Copies of a handle share the [Data] they point to. *)
Record DelayedOperation : Type := { data_ : addr }.

(** Modelled from the spec: [operator==] of [DelayedOperation] is declared in
    the missing header; entries are compared "by identity", that is by the
    [Data] object they share. *)
#[global] Instance DelayedOperation_eq_dec : EqDecision DelayedOperation.
Proof. solve_decision. Defined.

(** Client code.  An [Operation] ([std::function<void()>]) captures arbitrary
    code of the application; what the queue can observe of it is the
    sequence of calls it makes into the public interface of [AsyncQueue] and
    [DelayedOperation].  [Prog] is that sequence, with the value each call
    returns passed to the rest of the code.  [EmptyFunction] is a
    [std::function] that holds no target. *)
Inductive Prog : Type :=
| Return_
| CallEnqueue (operation : Operation) (k : Prog)
| CallEnqueueAllowingSameQueue (operation : Operation) (k : Prog)
| CallEnqueueWithDelay (delay : Seconds) (timer_id : TimerId)
    (operation : Operation) (k : DelayedOperation -> Prog)
| CallContainsDelayedOperationWithTimerId (timer_id : TimerId)
    (k : bool -> Prog)
| CallVerifyIsCurrentQueue (k : Prog)
| CallEnterCheckedOperation (operation : Operation) (k : Prog)
| CallCancel (self : DelayedOperation) (k : Prog)
| CallRunImmediately (self : DelayedOperation) (k : Prog)
with Operation : Type :=
| EmptyFunction
| Lambda (body : Prog).

Scheme Prog_mut := Induction for Prog Sort Prop
  with Operation_mut := Induction for Operation Sort Prop.

(** What [Dispatch] receives: an [Operation] of the client, or the lambda
    [[this] { Run(); }] that [RunImmediately] builds. *)
Inductive Callable : Type :=
| FromClient (operation : Operation)
| RunOf (self : DelayedOperation).

(** [struct DelayedOperation::Data].  The model has one [AsyncQueue], the one
    every [queue_] points to, so that member is not represented. *)
Record Data : Type := {
  timer_id_ : TimerId;
  target_time_ : Seconds;
  operation_ : Operation;
  done_ : bool
}.

(** A libdispatch queue: its identity and the label it was created with
    ([None] when it was created without one). *)
Record dispatch_queue : Type := {
  queue_id : nat;
  queue_label : option string
}.

(** History of completions, kept for the proofs only (the code has no such
    member): which [Data] had its operation invoked by [Run], and which was
    marked done by [Cancel], in the order it happened. *)
Inductive Event : Type :=
| Executed (a : addr)
| Cancelled (a : addr).

Definition event_data (e : Event) : addr :=
  match e with Executed a => a | Cancelled a => a end.

Record World : Type := {
  (* members of AsyncQueue *)
  dispatch_queue_ : dispatch_queue;
  operations_ : list DelayedOperation;
  is_operation_in_progress_ : bool;
  (* the Data objects *)
  heap : list Data;
  (* libdispatch *)
  current_queue : dispatch_queue;
  dispatched : list Callable;
  timers : list (Seconds * DelayedOperation);
  (* ghost *)
  history : list Event
}.

Definition set_operations (ops : list DelayedOperation) (w : World) : World :=
  {| dispatch_queue_ := dispatch_queue_ w; operations_ := ops;
     is_operation_in_progress_ := is_operation_in_progress_ w;
     heap := heap w; current_queue := current_queue w;
     dispatched := dispatched w; timers := timers w; history := history w |}.

Definition set_in_progress (b : bool) (w : World) : World :=
  {| dispatch_queue_ := dispatch_queue_ w; operations_ := operations_ w;
     is_operation_in_progress_ := b;
     heap := heap w; current_queue := current_queue w;
     dispatched := dispatched w; timers := timers w; history := history w |}.

Definition set_heap (h : list Data) (w : World) : World :=
  {| dispatch_queue_ := dispatch_queue_ w; operations_ := operations_ w;
     is_operation_in_progress_ := is_operation_in_progress_ w;
     heap := h; current_queue := current_queue w;
     dispatched := dispatched w; timers := timers w; history := history w |}.

Definition set_current_queue (q : dispatch_queue) (w : World) : World :=
  {| dispatch_queue_ := dispatch_queue_ w; operations_ := operations_ w;
     is_operation_in_progress_ := is_operation_in_progress_ w;
     heap := heap w; current_queue := q;
     dispatched := dispatched w; timers := timers w; history := history w |}.

Definition set_dispatched (l : list Callable) (w : World) : World :=
  {| dispatch_queue_ := dispatch_queue_ w; operations_ := operations_ w;
     is_operation_in_progress_ := is_operation_in_progress_ w;
     heap := heap w; current_queue := current_queue w;
     dispatched := l; timers := timers w; history := history w |}.

Definition set_timers (l : list (Seconds * DelayedOperation)) (w : World)
  : World :=
  {| dispatch_queue_ := dispatch_queue_ w; operations_ := operations_ w;
     is_operation_in_progress_ := is_operation_in_progress_ w;
     heap := heap w; current_queue := current_queue w;
     dispatched := dispatched w; timers := l; history := history w |}.

Definition set_history (l : list Event) (w : World) : World :=
  {| dispatch_queue_ := dispatch_queue_ w; operations_ := operations_ w;
     is_operation_in_progress_ := is_operation_in_progress_ w;
     heap := heap w; current_queue := current_queue w;
     dispatched := dispatched w; timers := timers w; history := l |}.

(** ** The monad of member functions *)

(** The assertions of the file, named after what they report. *)
Inductive Violation : Type :=
| WrongDispatchQueue        (* "We are running on the wrong dispatch queue" *)
| OutsideCheckedOperation   (* "verifyIsCurrentQueue called outside enterCheckedOperation" *)
| OperationInProgress       (* "EnterCheckedOperation may not be called when an operation is in progress" *)
| EnqueueOnTargetQueue      (* "Enqueue called when we are already running on target dispatch queue" *)
| MultipleCallbacks (timer_id : TimerId)
                            (* "Attempted to schedule multiple callbacks with id" *)
| NothingDequeued           (* assert(new_end != operations_.end()) *)
| NoOperation               (* assert(data_->operation_) *)
| BadFunctionCall.          (* an empty std::function is called *)

(** A call returns, dies on an assertion, or follows a handle that owns no
    [Data] (which no handle of the C++ program does). *)
Inductive outcome (A : Type) : Type :=
| Ok (a : A)
| Fatal (v : Violation)
| Undefined.
Arguments Ok {A} a.
Arguments Fatal {A} v.
Arguments Undefined {A}.

Definition M (A : Type) : Type := World -> outcome (A * World).

Definition ret {A} (a : A) : M A := fun w => Ok (a, w).

Definition bind {A B} (m : M A) (k : A -> M B) : M B :=
  fun w =>
    match m w with
    | Ok (a, w') => k a w'
    | Fatal v => Fatal v
    | Undefined => Undefined
    end.

Notation "'let*' x ':=' m 'in' k" := (bind m (fun x => k))
  (at level 10, x name, m at level 100, k at level 200, only parsing).
Notation "m ';;;' k" := (bind m (fun _ => k))
  (at level 100, k at level 200, right associativity, only parsing).

Definition get : M World := fun w => Ok (w, w).
Definition modify (f : World -> World) : M unit := fun w => Ok (tt, f w).
Definition throw {A} (v : Violation) : M A := fun _ => Fatal v.
Definition undefined {A} : M A := fun _ => Undefined.

(** Modelled from the spec: the macro [FIREBASE_ASSERT_MESSAGE] is defined
    outside the sources; a violated contract "fails fatally". *)
Definition FIREBASE_ASSERT_MESSAGE (condition : bool) (v : Violation)
  : M unit :=
  if condition then ret tt else throw v.

(** [assert] of [<assert.h>], taken as enabled (no [NDEBUG]). *)
Definition assert (condition : bool) (v : Violation) : M unit :=
  if condition then ret tt else throw v.

(** [data_->...]: follow the shared pointer of a handle. *)
Definition deref (self : DelayedOperation) : M Data :=
  fun w =>
    match heap w !! data_ self with
    | Some d => Ok (d, w)
    | None => Undefined
    end.

(** Ghost: record a completion. *)
Definition record_event (e : Event) : M unit :=
  modify (fun w => set_history (history w ++ [e]) w).

(** ** AsyncQueue: lane identity *)

(** [absl::NullSafeStringView]: a null pointer reads as the empty string. *)
Definition NullSafeStringView (p : option string) : string :=
  match p with
  | Some s => s
  | None => EmptyString
  end.

(** [dispatch_queue_get_label(DISPATCH_CURRENT_QUEUE_LABEL)] is the label of
    the queue the caller runs on. *)
Definition GetCurrentQueueLabel (w : World) : string :=
  NullSafeStringView (queue_label (current_queue w)).

(** [native_handle()] is the queue the [AsyncQueue] was built on. *)
Definition native_handle (w : World) : dispatch_queue := dispatch_queue_ w.

Definition GetTargetQueueLabel (w : World) : string :=
  NullSafeStringView (queue_label (native_handle w)).

Definition OnTargetQueue (w : World) : bool :=
  String.eqb (GetCurrentQueueLabel w) (GetTargetQueueLabel w).

Definition VerifyIsCurrentQueue : M unit :=
  let* w := get in
  FIREBASE_ASSERT_MESSAGE (OnTargetQueue w) WrongDispatchQueue ;;;
  FIREBASE_ASSERT_MESSAGE (is_operation_in_progress_ w)
    OutsideCheckedOperation.

(** ** AsyncQueue: the pending list *)

(** [std::remove(begin, end, dequeued)]: the elements that differ from
    [dequeued], in their order; [new_end] is where they stop. *)
Definition std_remove (dequeued : DelayedOperation)
  (l : list DelayedOperation) : list DelayedOperation :=
  filter (fun op => op <> dequeued) l.

Definition Dequeue (dequeued : DelayedOperation) : M unit :=
  let* w := get in
  let kept := std_remove dequeued (operations_ w) in
  let new_end := length kept in
  assert (negb (Nat.eqb new_end (length (operations_ w)))) NothingDequeued ;;;
  modify (set_operations kept).

(** [std::find_if] with the predicate [op.timer_id() == timer_id], where
    [timer_id()] reads [data_->timer_id_]; the scan stops at the first
    match. *)
Fixpoint find_timer_id (timer_id : TimerId) (hp : list Data)
  (ops : list DelayedOperation) : outcome bool :=
  match ops with
  | [] => Ok false
  | op :: rest =>
      match hp !! data_ op with
      | Some d =>
          if Nat.eqb (timer_id_ d) timer_id then Ok true
          else find_timer_id timer_id hp rest
      | None => Undefined
      end
  end.

Definition ContainsDelayedOperationWithTimerId (timer_id : TimerId)
  : M bool :=
  fun w =>
    match find_timer_id timer_id (heap w) (operations_ w) with
    | Ok b => Ok (b, w)
    | Fatal v => Fatal v
    | Undefined => Undefined
    end.

(** ** AsyncQueue: submitting work *)

(** [Dispatch] wraps the operation into [EnterCheckedOperation(operation)]
    and hands the wrapper to [dispatch_async_f]; the wrapping is applied
    when libdispatch runs the block (see [run_block]). *)
Definition Dispatch (operation : Callable) : M unit :=
  modify (fun w => set_dispatched (dispatched w ++ [operation]) w).

Definition Enqueue (operation : Operation) : M unit :=
  let* w := get in
  FIREBASE_ASSERT_MESSAGE
    (negb (is_operation_in_progress_ w) || negb (OnTargetQueue w))
    EnqueueOnTargetQueue ;;;
  Dispatch (FromClient operation).

Definition EnqueueAllowingSameQueue (operation : Callable) : M unit :=
  Dispatch operation.

(** [DelayedOperation::Schedule]: arm a timer on the queue that will call
    [EnterCheckedOperation([self] { self->Run(); })].  The timer is given
    [this]; the model gives it the handle, that is the [Data] the object
    shares (where the object lives in memory is not modelled). *)
Definition Schedule (self : DelayedOperation) (delay : Seconds) : M unit :=
  modify (fun w => set_timers (timers w ++ [(delay, self)]) w).

(** The constructor of [DelayedOperation]: [std::make_shared<Data>], with
    [done_] initially false, then [Schedule(delay)]. *)
Definition new_DelayedOperation (timer_id : TimerId) (delay : Seconds)
  (operation : Operation) : M DelayedOperation :=
  let* w := get in
  let self := {| data_ := length (heap w) |} in
  modify (set_heap (heap w ++
    [{| timer_id_ := timer_id; target_time_ := delay;
        operation_ := operation; done_ := false |}])) ;;;
  Schedule self delay ;;;
  ret self.

Definition EnqueueWithDelay (delay : Seconds) (timer_id : TimerId)
  (operation : Operation) : M DelayedOperation :=
  let* found := ContainsDelayedOperationWithTimerId timer_id in
  FIREBASE_ASSERT_MESSAGE (negb found) (MultipleCallbacks timer_id) ;;;
  (* operations_.emplace_back(this, timer_id, delay, std::move(operation)) *)
  let* op := new_DelayedOperation timer_id delay operation in
  modify (fun w => set_operations (operations_ w ++ [op]) w) ;;;
  (* return operations_.back() *)
  let* w := get in
  match last (operations_ w) with
  | Some back => ret back
  | None => undefined
  end.

(** [EnterCheckedOperation], with the call [operation()] given by what it
    does to the machine. *)
Definition EnterCheckedOperation (operation : M unit) : M unit :=
  let* w := get in
  FIREBASE_ASSERT_MESSAGE (negb (is_operation_in_progress_ w))
    OperationInProgress ;;;
  modify (set_in_progress true) ;;;
  VerifyIsCurrentQueue ;;;
  operation ;;;
  modify (set_in_progress false).

(** ** DelayedOperation *)

Definition set_done (d : Data) : Data :=
  {| timer_id_ := timer_id_ d; target_time_ := target_time_ d;
     operation_ := operation_ d; done_ := true |}.

Definition MarkDone (self : DelayedOperation) : M unit :=
  let* d := deref self in
  modify (fun w => set_heap (<[data_ self := set_done d]> (heap w)) w) ;;;
  Dequeue self.

Definition Cancel (self : DelayedOperation) : M unit :=
  VerifyIsCurrentQueue ;;;
  let* d := deref self in
  if negb (done_ d) then
    MarkDone self ;;;
    record_event (Cancelled (data_ self))
  else ret tt.

Definition RunImmediately (self : DelayedOperation) : M unit :=
  EnqueueAllowingSameQueue (RunOf self).

(** ** Running client code *)

(** The calls of client code, one after the other.  [operation()] on an
    empty [std::function] throws [std::bad_function_call], which nothing
    catches. *)
Fixpoint exec (p : Prog) : M unit :=
  match p with
  | Return_ => ret tt
  | CallEnqueue operation k =>
      Enqueue operation ;;; exec k
  | CallEnqueueAllowingSameQueue operation k =>
      EnqueueAllowingSameQueue (FromClient operation) ;;; exec k
  | CallEnqueueWithDelay delay timer_id operation k =>
      let* handle := EnqueueWithDelay delay timer_id operation in
      exec (k handle)
  | CallContainsDelayedOperationWithTimerId timer_id k =>
      let* found := ContainsDelayedOperationWithTimerId timer_id in
      exec (k found)
  | CallVerifyIsCurrentQueue k =>
      VerifyIsCurrentQueue ;;; exec k
  | CallEnterCheckedOperation operation k =>
      EnterCheckedOperation
        (match operation with
         | EmptyFunction => throw BadFunctionCall
         | Lambda body => exec body
         end) ;;;
      exec k
  | CallCancel self k =>
      Cancel self ;;; exec k
  | CallRunImmediately self k =>
      RunImmediately self ;;; exec k
  end.

(** [operation()] for an [Operation] of the client. *)
Definition invoke (operation : Operation) : M unit :=
  match operation with
  | EmptyFunction => throw BadFunctionCall
  | Lambda body => exec body
  end.

Definition is_callable (operation : Operation) : bool :=
  match operation with
  | EmptyFunction => false
  | Lambda _ => true
  end.

Definition Run (self : DelayedOperation) : M unit :=
  VerifyIsCurrentQueue ;;;
  let* d := deref self in
  if negb (done_ d) then
    MarkDone self ;;;
    let* d' := deref self in
    assert (is_callable (operation_ d')) NoOperation ;;;
    record_event (Executed (data_ self)) ;;;
    invoke (operation_ d')
  else ret tt.

(** [operation()] for what [Dispatch] was given. *)
Definition call (operation : Callable) : M unit :=
  match operation with
  | FromClient f => invoke f
  | RunOf self => Run self
  end.

(** ** libdispatch and the application *)

(** What can happen to the machine, one step at a time: code of the
    application, running on some queue [q], calls into the interface; the
    serial queue runs the oldest block it was handed by [Dispatch]; an armed
    timer fires.  Blocks and timers run on the queue of the [AsyncQueue]. *)
Inductive Action : Type :=
| ClientCode (q : dispatch_queue) (p : Prog)
| RunBlock
| FireTimer (i : nat).

Definition run_block : M unit :=
  let* w := get in
  match dispatched w with
  | [] => ret tt
  | operation :: rest =>
      modify (set_dispatched rest) ;;;
      modify (set_current_queue (native_handle w)) ;;;
      EnterCheckedOperation (call operation)
  end.

Definition fire_timer (i : nat) : M unit :=
  let* w := get in
  match timers w !! i with
  | None => ret tt
  | Some (_, self) =>
      modify (set_timers (delete i (timers w))) ;;;
      modify (set_current_queue (native_handle w)) ;;;
      EnterCheckedOperation (Run self)
  end.

Definition do_action (a : Action) : M unit :=
  match a with
  | ClientCode q p => modify (set_current_queue q) ;;; exec p
  | RunBlock => run_block
  | FireTimer i => fire_timer i
  end.

Fixpoint run (actions : list Action) : M unit :=
  match actions with
  | [] => ret tt
  | a :: rest => do_action a ;;; run rest
  end.

(** A freshly built [AsyncQueue] on the dispatch queue [q]. *)
Definition new_AsyncQueue (q : dispatch_queue) : World :=
  {| dispatch_queue_ := q; operations_ := [];
     is_operation_in_progress_ := false;
     heap := []; current_queue := q;
     dispatched := []; timers := []; history := [] |}.

(** The worlds the program can be in between two steps. *)
Definition reachable (w : World) : Prop :=
  exists q actions, run actions (new_AsyncQueue q) = Ok (tt, w).

(** ** Worlds and predicates used in the statements *)

(** The world after [MarkDone] on a pending entry whose data is [d]. *)
Definition marked_done (self : DelayedOperation) (d : Data) (w : World)
  : World :=
  set_operations (std_remove self (operations_ w))
    (set_heap (<[data_ self := set_done d]> (heap w)) w).

(** The world after a completion: the entry marked done and the ghost
    event recorded. *)
Definition completed (e : Event) (self : DelayedOperation) (d : Data)
  (w : World) : World :=
  set_history (history w ++ [e]) (marked_done self d w).

(** The world after a successful [EnqueueWithDelay]. *)
Definition scheduled (delay : Seconds) (timer_id : TimerId)
  (operation : Operation) (w : World) : World :=
  let self := {| data_ := length (heap w) |} in
  set_operations (operations_ w ++ [self])
    (set_timers (timers w ++ [(delay, self)])
       (set_heap (heap w ++
          [{| timer_id_ := timer_id; target_time_ := delay;
              operation_ := operation; done_ := false |}]) w)).

(** An entry carries a timer id when its [Data] does. *)
Definition carries (w : World) (op : DelayedOperation) (timer_id : TimerId)
  : Prop :=
  exists d, heap w !! data_ op = Some d /\ timer_id_ d = timer_id.

(** What holds of the pending list, the [Data] objects and the history
    whenever a member function is entered or left. *)
Record Inv (w : World) : Prop := {
  Inv_pending : forall op, op ∈ operations_ w ->
    exists d, heap w !! data_ op = Some d /\ done_ d = false;
  Inv_not_done : forall a d, heap w !! a = Some d -> done_ d = false ->
    {| data_ := a |} ∈ operations_ w;
  Inv_NoDup : NoDup (operations_ w);
  Inv_timer_ids : forall op1 op2 t,
    op1 ∈ operations_ w -> op2 ∈ operations_ w ->
    carries w op1 t -> carries w op2 t -> op1 = op2;
  Inv_history : forall e, e ∈ history w ->
    exists d, heap w !! event_data e = Some d /\ done_ d = true;
  Inv_once : NoDup (event_data <$> history w)
}.

(** [m] keeps [P]: when [P] holds and [m] returns, [P] holds of the world
    it returns. *)
Definition preserves {A} (P : World -> Prop) (m : M A) : Prop :=
  forall w a w', P w -> m w = Ok (a, w') -> P w'.

(** The flag [is_operation_in_progress_] has the value [b]. *)
Definition flag_is (b : bool) (w : World) : Prop :=
  is_operation_in_progress_ w = b.

(** The [Data] at [a] is marked done. *)
Definition is_done (a : addr) (w : World) : Prop :=
  exists d, heap w !! a = Some d /\ done_ d = true.

(** Events can be compared. *)
#[global] Instance Event_eq_dec : EqDecision Event.
Proof. solve_decision. Defined.



(** An entry is pending exactly when it is not done. *)
Definition pending_iff_not_done (w : World) : Prop :=
  forall self d, heap w !! data_ self = Some d ->
    (self ∈ operations_ w <-> done_ d = false).


(** What [VerifyIsCurrentQueue] verifies. *)
Definition in_checked_operation (w : World) : Prop :=
  OnTargetQueue w = true /\ is_operation_in_progress_ w = true.

(** ** A scenario, for the examples *)

(** The queue of the [AsyncQueue], the main queue, and queues created
    without a label. *)
Definition firestore_queue : dispatch_queue :=
  {| queue_id := 0; queue_label := Some "firestore"%string |}.

Definition main_queue : dispatch_queue :=
  {| queue_id := 1; queue_label := Some "main"%string |}.


(** An operation that schedules timer id 7 again. *)
Definition reschedule_body : Prog :=
  CallEnqueueWithDelay 1%Z 7 (Lambda Return_) (fun _ => Return_).

(** Code of the application: schedule timer id 7 after 5 seconds, then
    enqueue an operation that cancels it. *)
Definition application : Prog :=
  CallEnqueueWithDelay 5%Z 7 (Lambda reschedule_body)
    (fun handle => CallEnqueue (Lambda (CallCancel handle Return_)) Return_).

(** The [Data] of the entry the application schedules. *)
Definition scheduled_data : Data :=
  {| timer_id_ := 7; target_time_ := 5%Z;
     operation_ := Lambda reschedule_body; done_ := false |}.

(** Timer id 7 is pending. *)
Definition world_scheduled : World :=
  scheduled 5%Z 7 (Lambda reschedule_body) (new_AsyncQueue firestore_queue).

(** The same, seen from inside a checked operation. *)
Definition world_in_operation : World :=
  set_in_progress true world_scheduled.


(** What happens: the application runs; the timer fires (the body
    schedules the id again); the queue runs the cancelling operation; the
    second timer fires; the application asks for the first entry to run
    immediately; the queue runs that request. *)
Definition steps : list Action :=
  [ClientCode main_queue application; FireTimer 0; RunBlock; FireTimer 0;
   ClientCode main_queue (CallRunImmediately {| data_ := 0 |} Return_);
   RunBlock].

(** ** Predicates and worlds of the further properties *)



(** The two failures of [VerifyIsCurrentQueue]. *)
Definition lane_violation (v : Violation) : Prop :=
  v = WrongDispatchQueue \/ v = OutsideCheckedOperation.

(** The call did not die on a failure of [VerifyIsCurrentQueue]. *)
Definition passes_lane_check {A} (r : outcome A) : Prop :=
  forall v, r = Fatal v -> ~ lane_violation v.






(** * Properties *)

(** ** Equations of the member functions *)

Lemma VerifyIsCurrentQueue_eq w :
  VerifyIsCurrentQueue w =
    if OnTargetQueue w then
      if is_operation_in_progress_ w then Ok (tt, w)
      else Fatal OutsideCheckedOperation
    else Fatal WrongDispatchQueue.
Proof.
  unfold VerifyIsCurrentQueue, bind, get, FIREBASE_ASSERT_MESSAGE.
  destruct (OnTargetQueue w); simpl; [|done].
  by destruct (is_operation_in_progress_ w).
Qed.

Lemma std_remove_length dequeued l :
  length (std_remove dequeued l) = length l <-> dequeued ∉ l.
Proof.
  unfold std_remove. induction l as [|x l IH]; simpl.
  - split; [intros _; apply not_elem_of_nil | done].
  - rewrite filter_cons. rewrite not_elem_of_cons.
    destruct (decide (x <> dequeued)) as [Hne|Heq]; simpl.
    + rewrite <- IH. split; [intros H; split; [congruence|lia] | intros [_ H]; lia].
    + apply dec_stable in Heq. subst x. split; [|intros [? _]; done].
      intros H. pose proof (length_filter (fun op => op <> dequeued) l). lia.
Qed.

Lemma elem_of_std_remove dequeued l op :
  op ∈ std_remove dequeued l <-> op <> dequeued /\ op ∈ l.
Proof. unfold std_remove. by rewrite list_elem_of_filter. Qed.

Lemma Dequeue_eq dequeued w :
  Dequeue dequeued w =
    if bool_decide (dequeued ∈ operations_ w) then
      Ok (tt, set_operations (std_remove dequeued (operations_ w)) w)
    else Fatal NothingDequeued.
Proof.
  unfold Dequeue, bind, get, assert, modify, ret, throw.
  pose proof (std_remove_length dequeued (operations_ w)) as Hlen.
  destruct (Nat.eqb_spec (length (std_remove dequeued (operations_ w)))
              (length (operations_ w))) as [He|Hn]; simpl.
  - rewrite bool_decide_eq_false_2; [done | by apply Hlen].
  - rewrite bool_decide_eq_true_2; [done |].
    destruct (decide (dequeued ∈ operations_ w)); [done|].
    exfalso. apply Hn. by apply Hlen.
Qed.

Lemma MarkDone_eq self w :
  MarkDone self w =
    match heap w !! data_ self with
    | None => Undefined
    | Some d =>
        if bool_decide (self ∈ operations_ w) then
          Ok (tt, marked_done self d w)
        else Fatal NothingDequeued
    end.
Proof.
  unfold MarkDone, bind, deref, modify.
  destruct (heap w !! data_ self) as [d|]; [|done].
  rewrite Dequeue_eq. simpl. by destruct (bool_decide _).
Qed.

Lemma Cancel_eq self w :
  Cancel self w =
    match VerifyIsCurrentQueue w with
    | Ok _ =>
        match heap w !! data_ self with
        | None => Undefined
        | Some d =>
            if done_ d then Ok (tt, w)
            else if bool_decide (self ∈ operations_ w) then
              Ok (tt, completed (Cancelled (data_ self)) self d w)
            else Fatal NothingDequeued
        end
    | Fatal v => Fatal v
    | Undefined => Undefined
    end.
Proof.
  unfold Cancel, bind at 1. rewrite VerifyIsCurrentQueue_eq.
  destruct (OnTargetQueue w); [|done].
  destruct (is_operation_in_progress_ w); [|done].
  unfold bind, deref.
  destruct (heap w !! data_ self) as [d|] eqn:Hd; [|done].
  destruct (done_ d); simpl; [done|].
  rewrite MarkDone_eq, Hd.
  by destruct (bool_decide _).
Qed.

Lemma Run_eq self w :
  Run self w =
    match VerifyIsCurrentQueue w with
    | Ok _ =>
        match heap w !! data_ self with
        | None => Undefined
        | Some d =>
            if done_ d then Ok (tt, w)
            else if bool_decide (self ∈ operations_ w) then
              if is_callable (operation_ d) then
                invoke (operation_ d)
                  (completed (Executed (data_ self)) self d w)
              else Fatal NoOperation
            else Fatal NothingDequeued
        end
    | Fatal v => Fatal v
    | Undefined => Undefined
    end.
Proof.
  unfold Run, bind at 1. rewrite VerifyIsCurrentQueue_eq.
  destruct (OnTargetQueue w); [|done].
  destruct (is_operation_in_progress_ w); [|done].
  unfold bind at 1, deref at 1.
  destruct (heap w !! data_ self) as [d|] eqn:Hd; [|done].
  destruct (done_ d); simpl; [done|].
  unfold bind at 1. rewrite MarkDone_eq, Hd.
  destruct (bool_decide _); [|done].
  unfold bind at 1, deref. simpl.
  rewrite list_lookup_insert_eq by (by eapply lookup_lt_Some).
  simpl. unfold bind, assert, record_event, modify.
  by destruct (is_callable (operation_ d)).
Qed.

Lemma EnterCheckedOperation_eq (operation : M unit) w :
  EnterCheckedOperation operation w =
    if is_operation_in_progress_ w then Fatal OperationInProgress
    else if OnTargetQueue w then
      match operation (set_in_progress true w) with
      | Ok (_, w') => Ok (tt, set_in_progress false w')
      | Fatal v => Fatal v
      | Undefined => Undefined
      end
    else Fatal WrongDispatchQueue.
Proof.
  cbv [EnterCheckedOperation bind get modify FIREBASE_ASSERT_MESSAGE ret
       throw].
  destruct (is_operation_in_progress_ w) eqn:Hf; simpl; [done|].
  rewrite VerifyIsCurrentQueue_eq. simpl.
  change (OnTargetQueue (set_in_progress true w)) with (OnTargetQueue w).
  destruct (OnTargetQueue w); [|done].
  destruct (operation (set_in_progress true w)) as [[[] w']| |]; done.
Qed.

Lemma Enqueue_eq operation w :
  Enqueue operation w =
    if is_operation_in_progress_ w && OnTargetQueue w then
      Fatal EnqueueOnTargetQueue
    else
      Ok (tt, set_dispatched (dispatched w ++ [FromClient operation]) w).
Proof.
  unfold Enqueue, bind, get, FIREBASE_ASSERT_MESSAGE, Dispatch, modify.
  by destruct (is_operation_in_progress_ w), (OnTargetQueue w).
Qed.

Lemma EnqueueWithDelay_eq delay timer_id operation w :
  EnqueueWithDelay delay timer_id operation w =
    match find_timer_id timer_id (heap w) (operations_ w) with
    | Ok true => Fatal (MultipleCallbacks timer_id)
    | Ok false =>
        Ok ({| data_ := length (heap w) |},
            scheduled delay timer_id operation w)
    | Fatal v => Fatal v
    | Undefined => Undefined
    end.
Proof.
  cbv [EnqueueWithDelay bind ContainsDelayedOperationWithTimerId
       FIREBASE_ASSERT_MESSAGE new_DelayedOperation Schedule get modify ret
       throw undefined].
  destruct (find_timer_id timer_id (heap w) (operations_ w)) as [[]| |];
    simpl; try done.
  by rewrite last_snoc.
Qed.

Lemma find_timer_id_not_Fatal timer_id hp ops v :
  find_timer_id timer_id hp ops <> Fatal v.
Proof.
  induction ops as [|op ops IH]; simpl; [done|].
  destruct (hp !! data_ op) as [d|]; [|done].
  by destruct (Nat.eqb (timer_id_ d) timer_id).
Qed.

Lemma find_timer_id_true timer_id hp ops :
  find_timer_id timer_id hp ops = Ok true ->
  exists op d, op ∈ ops /\ hp !! data_ op = Some d /\ timer_id_ d = timer_id.
Proof.
  induction ops as [|op ops IH]; simpl; [done|].
  destruct (hp !! data_ op) as [d|] eqn:Hd; [|done].
  destruct (Nat.eqb_spec (timer_id_ d) timer_id) as [He|Hn].
  - intros _. exists op, d. split; [apply list_elem_of_here | done].
  - intros H. destruct (IH H) as (op' & d' & Hin & H').
    exists op', d'. split; [by apply list_elem_of_further | done].
Qed.

Lemma find_timer_id_false timer_id hp ops :
  find_timer_id timer_id hp ops = Ok false <->
  forall op, op ∈ ops ->
    exists d, hp !! data_ op = Some d /\ timer_id_ d <> timer_id.
Proof.
  induction ops as [|op ops IH]; simpl.
  - split; [|done]. intros _ op H. by apply elem_of_nil in H.
  - destruct (hp !! data_ op) as [d|] eqn:Hd.
    + destruct (Nat.eqb_spec (timer_id_ d) timer_id) as [He|Hn].
      * split; [done|]. intros H.
        destruct (H op (list_elem_of_here _ _)) as (d' & Hd' & Hne).
        congruence.
      * rewrite IH. split.
        -- intros H op' Hin. apply elem_of_cons in Hin as [->|Hin];
             [by exists d | by apply H].
        -- intros H op' Hin. apply H. by apply list_elem_of_further.
    + split; [done|]. intros H.
      destruct (H op (list_elem_of_here _ _)) as (d' & Hd' & _).
      congruence.
Qed.

(** When every pending entry owns its [Data], the scan answers, and
    answers whether some entry carries the id. *)
Lemma find_timer_id_live timer_id hp ops :
  (forall op, op ∈ ops -> is_Some (hp !! data_ op)) ->
  exists b, find_timer_id timer_id hp ops = Ok b.
Proof.
  induction ops as [|op ops IH]; simpl; intros Hlive; [by eexists|].
  destruct (Hlive op (list_elem_of_here _ _)) as [d ->].
  destruct (Nat.eqb (timer_id_ d) timer_id); [by eexists|].
  apply IH. intros op' Hin. apply Hlive. by apply list_elem_of_further.
Qed.

(** ** The invariant *)

Lemma Inv_new q : Inv (new_AsyncQueue q).
Proof.
  split; simpl.
  - intros op H. by apply elem_of_nil in H.
  - intros a d H. by rewrite lookup_nil in H.
  - apply NoDup_nil_2.
  - intros op1 op2 t H. by apply elem_of_nil in H.
  - intros e H. by apply elem_of_nil in H.
  - apply NoDup_nil_2.
Qed.

(** The invariant only reads the pending list, the heap and the history. *)
Lemma Inv_frame w w' :
  operations_ w' = operations_ w -> heap w' = heap w ->
  history w' = history w -> Inv w -> Inv w'.
Proof.
  intros Ho Hh Hy [I1 I2 I3 I4 I5 I6].
  split; unfold carries in *; rewrite ?Ho, ?Hh, ?Hy; done.
Qed.

Lemma handle_eq (op1 op2 : DelayedOperation) :
  data_ op1 = data_ op2 -> op1 = op2.
Proof. destruct op1, op2; simpl; congruence. Qed.

Lemma Inv_scheduled delay timer_id operation w :
  Inv w ->
  find_timer_id timer_id (heap w) (operations_ w) = Ok false ->
  Inv (scheduled delay timer_id operation w).
Proof.
  intros [I1 I2 I3 I4 I5 I6] Hfind.
  rewrite find_timer_id_false in Hfind.
  assert (Hfresh : {| data_ := length (heap w) |} ∉ operations_ w).
  { intros Hin. destruct (I1 _ Hin) as (d & Hd & _). simpl in Hd.
    apply lookup_lt_Some in Hd. lia. }
  split; unfold carries; simpl.
  - intros op Hin. apply elem_of_app in Hin as [Hin|Hin].
    + destruct (I1 _ Hin) as (d & Hd & Hdone). exists d.
      split; [by apply lookup_app_l_Some | done].
    + apply list_elem_of_singleton in Hin. subst op. simpl.
      eexists. split; [apply list_lookup_middle; done | done].
  - intros a d Hd Hdone. apply lookup_app_Some in Hd as [Hd|[Hle Hd]].
    + apply elem_of_app. left. by eapply I2.
    + apply elem_of_app. right. apply list_elem_of_singleton. f_equal.
      apply lookup_lt_Some in Hd. simpl in Hd. lia.
  - apply NoDup_app. split; [done|]. split; [|apply NoDup_singleton].
    intros op Hin Hin'. apply list_elem_of_singleton in Hin'. by subst op.
  - assert (Hold : forall op t, op ∈ operations_ w ->
              (exists d, (heap w ++
                 [{| timer_id_ := timer_id; target_time_ := delay;
                     operation_ := operation; done_ := false |}])
                 !! data_ op = Some d /\ timer_id_ d = t) ->
              carries w op t).
    { intros op t Hin (d & Hd & Ht). exists d. split; [|done].
      destruct (I1 _ Hin) as (d0 & Hd0 & _).
      by rewrite (lookup_app_l_Some _ _ _ _ Hd0) in Hd; simplify_eq. }
    assert (Hnew : forall t,
              (exists d, (heap w ++
                 [{| timer_id_ := timer_id; target_time_ := delay;
                     operation_ := operation; done_ := false |}])
                 !! length (heap w) = Some d /\ timer_id_ d = t) ->
              t = timer_id).
    { intros t (d & Hd & Ht). rewrite list_lookup_middle in Hd by done.
      by simplify_eq. }
    intros op1 op2 t Hin1 Hin2 Hc1 Hc2.
    apply elem_of_app in Hin1 as [Hin1|Hin1];
      apply elem_of_app in Hin2 as [Hin2|Hin2].
    + eapply I4; eauto.
    + apply list_elem_of_singleton in Hin2. subst op2. simpl in Hc2.
      apply Hnew in Hc2. subst t. apply Hold in Hc1; [|done].
      destruct Hc1 as (d & Hd & Ht).
      destruct (Hfind _ Hin1) as (d' & Hd' & Hne). congruence.
    + apply list_elem_of_singleton in Hin1. subst op1. simpl in Hc1.
      apply Hnew in Hc1. subst t. apply Hold in Hc2; [|done].
      destruct Hc2 as (d & Hd & Ht).
      destruct (Hfind _ Hin2) as (d' & Hd' & Hne). congruence.
    + apply list_elem_of_singleton in Hin1, Hin2. congruence.
  - intros e Hin. destruct (I5 _ Hin) as (d & Hd & Hdone). exists d.
    split; [by apply lookup_app_l_Some | done].
  - done.
Qed.

Lemma Inv_completed e self d w :
  Inv w ->
  heap w !! data_ self = Some d -> done_ d = false ->
  event_data e = data_ self ->
  Inv (completed e self d w).
Proof.
  intros [I1 I2 I3 I4 I5 I6] Hd Hdone He.
  pose proof (lookup_lt_Some _ _ _ Hd) as Hlt.
  split; unfold carries; simpl.
  - intros op Hin. apply elem_of_std_remove in Hin as [Hne Hin].
    destruct (I1 _ Hin) as (d0 & Hd0 & Hdone0). exists d0. split; [|done].
    rewrite list_lookup_insert_ne; [done|].
    intros Heq. apply Hne. symmetry. by apply handle_eq.
  - intros a d0 Hd0 Hdone0.
    destruct (decide (a = data_ self)) as [->|Hne].
    + rewrite list_lookup_insert_eq in Hd0 by done. by simplify_eq.
    + rewrite list_lookup_insert_ne in Hd0 by done.
      apply elem_of_std_remove. split; [|by eapply I2].
      intros Heq. apply Hne. by rewrite <- Heq.
  - by apply NoDup_filter.
  - intros op1 op2 t Hin1 Hin2 Hc1 Hc2.
    apply elem_of_std_remove in Hin1 as [Hne1 Hin1].
    apply elem_of_std_remove in Hin2 as [Hne2 Hin2].
    apply (I4 op1 op2 t); try done.
    + destruct Hc1 as (d1 & Hd1 & Ht). exists d1. split; [|done].
      rewrite list_lookup_insert_ne in Hd1; [done|].
      intros Heq. apply Hne1. symmetry. by apply handle_eq.
    + destruct Hc2 as (d2 & Hd2 & Ht). exists d2. split; [|done].
      rewrite list_lookup_insert_ne in Hd2; [done|].
      intros Heq. apply Hne2. symmetry. by apply handle_eq.
  - intros e' Hin. apply elem_of_app in Hin as [Hin|Hin].
    + destruct (I5 _ Hin) as (d0 & Hd0 & Hdone0).
      destruct (decide (event_data e' = data_ self)) as [Heq|Hne].
      * rewrite Heq. exists (set_done d).
        split; [by apply list_lookup_insert_eq | done].
      * exists d0. split; [|done]. by rewrite list_lookup_insert_ne.
    + apply list_elem_of_singleton in Hin. subst e'. rewrite He.
      exists (set_done d). split; [by apply list_lookup_insert_eq | done].
  - rewrite fmap_app. simpl. apply NoDup_app. split; [done|].
    split; [|apply NoDup_singleton].
    intros a Hin Hin'. apply list_elem_of_singleton in Hin'. subst a.
    apply list_elem_of_fmap in Hin as (e' & He' & Hin).
    destruct (I5 _ Hin) as (d0 & Hd0 & Hdone0).
    rewrite <- He', He in Hd0. congruence.
Qed.

(** ** Properties kept by every call *)

Lemma preserves_ret {A} P (a : A) : preserves P (ret a).
Proof. intros w a' w' HP [= _ <-]. done. Qed.

Lemma preserves_throw {A} P v : preserves P (@throw A v).
Proof. intros w a w' _ [=]. Qed.

Lemma preserves_bind {A B} P (m : M A) (k : A -> M B) :
  preserves P m -> (forall a, preserves P (k a)) -> preserves P (bind m k).
Proof.
  intros Hm Hk w b w' HP. unfold bind.
  destruct (m w) as [[a w1]| |] eqn:E; [|done..].
  intros H. eapply Hk; [|exact H]. by eapply Hm.
Qed.

Lemma preserves_modify P (f : World -> World) :
  (forall w, P w -> P (f w)) -> preserves P (modify f).
Proof. intros Hf w a w' HP [= _ <-]. by apply Hf. Qed.

(** Calls that only read. *)
Lemma VerifyIsCurrentQueue_Ok w w' :
  VerifyIsCurrentQueue w = Ok (tt, w') ->
  w' = w /\ OnTargetQueue w = true /\ is_operation_in_progress_ w = true.
Proof.
  rewrite VerifyIsCurrentQueue_eq.
  destruct (OnTargetQueue w); [|done].
  destruct (is_operation_in_progress_ w); [|done].
  by intros [= <-].
Qed.

Lemma ContainsDelayedOperationWithTimerId_Ok timer_id w b w' :
  ContainsDelayedOperationWithTimerId timer_id w = Ok (b, w') ->
  w' = w /\ find_timer_id timer_id (heap w) (operations_ w) = Ok b.
Proof.
  unfold ContainsDelayedOperationWithTimerId.
  destruct (find_timer_id _ _ _); [|done..]. by intros [= <- <-].
Qed.

Lemma preserves_VerifyIsCurrentQueue P : preserves P VerifyIsCurrentQueue.
Proof.
  intros w [] w' HP H. by apply VerifyIsCurrentQueue_Ok in H as [-> _].
Qed.

Lemma preserves_ContainsDelayedOperationWithTimerId P timer_id :
  preserves P (ContainsDelayedOperationWithTimerId timer_id).
Proof.
  intros w b w' HP H.
  by apply ContainsDelayedOperationWithTimerId_Ok in H as [-> _].
Qed.

(** A property that the changes of state made by the member functions keep
    is kept by all client code and by every step of the program. *)
Section Client.
Variable P : World -> Prop.
Hypothesis P_current_queue : forall q w, P w -> P (set_current_queue q w).
Hypothesis P_dispatched : forall l w, P w -> P (set_dispatched l w).
Hypothesis P_timers : forall l w, P w -> P (set_timers l w).
Hypothesis P_scheduled : forall delay timer_id operation w,
  P w -> find_timer_id timer_id (heap w) (operations_ w) = Ok false ->
  P (scheduled delay timer_id operation w).
Hypothesis P_completed : forall e self d w,
  P w -> heap w !! data_ self = Some d -> done_ d = false ->
  event_data e = data_ self ->
  P (completed e self d w).
Hypothesis P_EnterCheckedOperation : forall operation,
  preserves P operation -> preserves P (EnterCheckedOperation operation).

Lemma preserves_Dispatch operation : preserves P (Dispatch operation).
Proof. apply preserves_modify. intros w. apply P_dispatched. Qed.

Lemma preserves_Enqueue operation : preserves P (Enqueue operation).
Proof.
  intros w [] w' HP. rewrite Enqueue_eq.
  destruct (_ && _); [done|]. intros [= <-]. by apply P_dispatched.
Qed.

Lemma preserves_EnqueueWithDelay delay timer_id operation :
  preserves P (EnqueueWithDelay delay timer_id operation).
Proof.
  intros w self w' HP. rewrite EnqueueWithDelay_eq.
  destruct (find_timer_id _ _ _) as [[]| |] eqn:E; [done| |done..].
  intros [= _ <-]. by apply P_scheduled.
Qed.

Lemma preserves_Cancel self : preserves P (Cancel self).
Proof.
  intros w [] w' HP. rewrite Cancel_eq.
  destruct (VerifyIsCurrentQueue w) as [[[] w1]| |] eqn:E; [|done..].
  destruct (heap w !! data_ self) as [d|] eqn:Hd; [|done].
  destruct (done_ d) eqn:Hdone; [by intros [= <-]|].
  destruct (bool_decide _); [|done].
  intros [= <-]. by apply P_completed.
Qed.

(** Whatever the client code, it keeps what each call keeps. *)
Lemma preserves_exec p : preserves P (exec p).
Proof.
  induction p using Prog_mut
    with (P0 := fun operation => preserves P (invoke operation)); simpl.
  - apply preserves_ret.
  - apply preserves_bind; [apply preserves_Enqueue | done].
  - apply preserves_bind; [apply preserves_Dispatch | done].
  - apply preserves_bind; [apply preserves_EnqueueWithDelay | done].
  - apply preserves_bind;
      [apply preserves_ContainsDelayedOperationWithTimerId | done].
  - apply preserves_bind; [apply preserves_VerifyIsCurrentQueue | done].
  - apply preserves_bind; [|done].
    apply P_EnterCheckedOperation. by destruct operation.
  - apply preserves_bind; [apply preserves_Cancel | done].
  - apply preserves_bind; [apply preserves_Dispatch | done].
  - apply preserves_throw.
  - done.
Qed.

Lemma preserves_invoke operation : preserves P (invoke operation).
Proof.
  destruct operation; simpl; [apply preserves_throw|apply preserves_exec].
Qed.

Lemma preserves_Run self : preserves P (Run self).
Proof.
  intros w [] w' HP. rewrite Run_eq.
  destruct (VerifyIsCurrentQueue w) as [[[] w1]| |] eqn:E; [|done..].
  destruct (heap w !! data_ self) as [d|] eqn:Hd; [|done].
  destruct (done_ d) eqn:Hdone; [by intros [= <-]|].
  destruct (bool_decide _); [|done].
  destruct (is_callable _); [|done].
  apply preserves_invoke. by apply P_completed.
Qed.

Lemma preserves_call operation : preserves P (call operation).
Proof.
  destruct operation; simpl; [apply preserves_invoke|apply preserves_Run].
Qed.

Lemma preserves_run_block : preserves P run_block.
Proof.
  intros w [] w' HP. unfold run_block, bind at 1, get.
  destruct (dispatched w) as [|operation rest]; [by intros [= <-]|].
  intros H. eapply (preserves_bind P); [| |exact HP|exact H].
  { apply preserves_modify; auto. }
  intros []. apply preserves_bind; [apply preserves_modify; auto|].
  intros []. apply P_EnterCheckedOperation, preserves_call.
Qed.

Lemma preserves_fire_timer i : preserves P (fire_timer i).
Proof.
  intros w [] w' HP. unfold fire_timer, bind at 1, get.
  destruct (timers w !! i) as [[delay self]|]; [|by intros [= <-]].
  intros H. eapply (preserves_bind P); [| |exact HP|exact H].
  { apply preserves_modify; auto. }
  intros []. apply preserves_bind; [apply preserves_modify; auto|].
  intros []. apply P_EnterCheckedOperation, preserves_Run.
Qed.

Lemma preserves_do_action a : preserves P (do_action a).
Proof.
  destruct a as [q p| |i]; simpl.
  - apply preserves_bind; [apply preserves_modify; auto|].
    intros []. apply preserves_exec.
  - apply preserves_run_block.
  - apply preserves_fire_timer.
Qed.

Lemma preserves_run actions : preserves P (run actions).
Proof.
  induction actions as [|a actions IH]; simpl; [apply preserves_ret|].
  apply preserves_bind; [apply preserves_do_action | done].
Qed.
End Client.

(** *** The invariant holds in every world the program reaches *)

Lemma Inv_EnterCheckedOperation operation :
  preserves Inv operation -> preserves Inv (EnterCheckedOperation operation).
Proof.
  intros Hop w [] w' HI. rewrite EnterCheckedOperation_eq.
  destruct (is_operation_in_progress_ w); [done|].
  destruct (OnTargetQueue w); [|done].
  destruct (operation (set_in_progress true w)) as [[[] w1]| |] eqn:E;
    [|done..].
  intros [= <-]. apply (Inv_frame w1); try done.
  eapply Hop; [|exact E]. by apply (Inv_frame w).
Qed.

Lemma Inv_do_action a : preserves Inv (do_action a).
Proof.
  apply preserves_do_action.
  - intros q w. by apply Inv_frame.
  - intros l w. by apply Inv_frame.
  - intros l w. by apply Inv_frame.
  - intros. by apply Inv_scheduled.
  - intros. by apply Inv_completed.
  - apply Inv_EnterCheckedOperation.
Qed.

Lemma reachable_Inv w : reachable w -> Inv w.
Proof.
  intros (q & actions & H).
  eapply (preserves_run Inv); [..|apply Inv_new|exact H].
  - intros ? ?. by apply Inv_frame.
  - intros ? ?. by apply Inv_frame.
  - intros ? ?. by apply Inv_frame.
  - intros. by apply Inv_scheduled.
  - intros. by apply Inv_completed.
  - apply Inv_EnterCheckedOperation.
Qed.

(** *** The flag *)

Lemma flag_EnterCheckedOperation b operation :
  preserves (flag_is b) (EnterCheckedOperation operation).
Proof.
  intros w [] w' Hb. rewrite EnterCheckedOperation_eq. unfold flag_is in *.
  rewrite Hb. destruct b; [done|].
  destruct (OnTargetQueue w); [|done].
  destruct (operation _) as [[[] w1]| |]; [|done..].
  by intros [= <-].
Qed.

Section Flag.
Variable b : bool.

Lemma flag_exec p : preserves (flag_is b) (exec p).
Proof.
  apply preserves_exec; try done.
  intros. apply flag_EnterCheckedOperation.
Qed.

Lemma flag_Run self : preserves (flag_is b) (Run self).
Proof.
  apply preserves_Run; try done.
  intros. apply flag_EnterCheckedOperation.
Qed.
End Flag.

Lemma reachable_idle w : reachable w -> is_operation_in_progress_ w = false.
Proof.
  intros (q & actions & H).
  eapply (preserves_run (flag_is false)); [..|exact H]; try done.
  intros. apply flag_EnterCheckedOperation.
Qed.

(** *** Done is final *)

Lemma is_done_scheduled a delay timer_id operation w :
  is_done a w -> is_done a (scheduled delay timer_id operation w).
Proof.
  intros (d & Hd & Hdone). exists d.
  split; [by apply lookup_app_l_Some | done].
Qed.

Lemma is_done_completed a e self d w :
  is_done a w -> is_done a (completed e self d w).
Proof.
  intros (d0 & Hd0 & Hdone0). unfold is_done. simpl.
  destruct (decide (data_ self = a)) as [<-|Hne].
  - exists (set_done d).
    split; [|done]. apply list_lookup_insert_eq. by eapply lookup_lt_Some.
  - exists d0. by rewrite list_lookup_insert_ne.
Qed.

Lemma is_done_EnterCheckedOperation a operation :
  preserves (is_done a) operation ->
  preserves (is_done a) (EnterCheckedOperation operation).
Proof.
  intros Hop w [] w' HI. rewrite EnterCheckedOperation_eq.
  destruct (is_operation_in_progress_ w); [done|].
  destruct (OnTargetQueue w); [|done].
  destruct (operation (set_in_progress true w)) as [[[] w1]| |] eqn:E;
    [|done..].
  intros [= <-]. exact (Hop (set_in_progress true w) tt w1 HI E).
Qed.

Lemma is_done_exec a p : preserves (is_done a) (exec p).
Proof.
  apply preserves_exec; try done.
  - intros. by apply is_done_scheduled.
  - intros. by apply is_done_completed.
  - apply is_done_EnterCheckedOperation.
Qed.

(** ** VerifyIsCurrentQueue *)

(** C7. [VerifyIsCurrentQueue] fails fatally exactly when the caller is not
    on the target queue or no checked operation is in progress; it returns,
    leaving the world as it was, exactly when both hold.  On the right queue
    but outside a checked operation it is refused. *)
Theorem VerifyIsCurrentQueue_fails_iff (w : World) :
  ((exists v, VerifyIsCurrentQueue w = Fatal v) <->
     (OnTargetQueue w = false \/ is_operation_in_progress_ w = false))
  /\ (VerifyIsCurrentQueue w = Ok (tt, w) <->
        (OnTargetQueue w = true /\ is_operation_in_progress_ w = true))
  /\ (forall r, VerifyIsCurrentQueue w = Ok r -> r = (tt, w))
  /\ (OnTargetQueue w = false ->
        VerifyIsCurrentQueue w = Fatal WrongDispatchQueue)
  /\ (OnTargetQueue w = true -> is_operation_in_progress_ w = false ->
        VerifyIsCurrentQueue w = Fatal OutsideCheckedOperation)
  /\ VerifyIsCurrentQueue w <> Undefined.
Proof.
  rewrite VerifyIsCurrentQueue_eq.
  destruct (OnTargetQueue w), (is_operation_in_progress_ w);
    split_and!; try done; try (intros r [= <-]; done).
  all: split; intros H; try done; eauto.
  all: try (destruct H as [v H]; done).
  all: try (destruct H as [H|H]; done).
  all: destruct H; done.
Qed.

(** ** Enqueue *)


(** ** Lane identity *)


(** ** The in-progress flag *)

(** C8. The flag goes from unset to set and back around each checked
    operation: [EnterCheckedOperation] fails fatally when the flag is
    already set; otherwise it sets the flag, verifies the queue, runs the
    operation with the flag set and unsets the flag before it returns.  No
    call of client code changes the flag, and between two steps of the
    program the flag is unset. *)
Theorem EnterCheckedOperation_flag :
  (forall operation w,
     is_operation_in_progress_ w = true ->
     EnterCheckedOperation operation w = Fatal OperationInProgress)
  /\ (forall operation w,
        is_operation_in_progress_ w = false -> OnTargetQueue w = false ->
        EnterCheckedOperation operation w = Fatal WrongDispatchQueue)
  /\ (forall operation w,
        is_operation_in_progress_ w = false -> OnTargetQueue w = true ->
        EnterCheckedOperation operation w =
          match operation (set_in_progress true w) with
          | Ok (_, w') => Ok (tt, set_in_progress false w')
          | Fatal v => Fatal v
          | Undefined => Undefined
          end)
  /\ (forall operation w w',
        EnterCheckedOperation operation w = Ok (tt, w') ->
        is_operation_in_progress_ w = false /\
        is_operation_in_progress_ w' = false)
  /\ (forall p w w',
        exec p w = Ok (tt, w') ->
        is_operation_in_progress_ w' = is_operation_in_progress_ w)
  /\ (forall self w w',
        Run self w = Ok (tt, w') ->
        is_operation_in_progress_ w = true /\
        is_operation_in_progress_ w' = true)
  /\ (forall w, reachable w -> is_operation_in_progress_ w = false).
Proof.
  split_and!.
  - intros operation w Hp. by rewrite EnterCheckedOperation_eq, Hp.
  - intros operation w Hp Hq. by rewrite EnterCheckedOperation_eq, Hp, Hq.
  - intros operation w Hp Hq. by rewrite EnterCheckedOperation_eq, Hp, Hq.
  - intros operation w w'. rewrite EnterCheckedOperation_eq.
    destruct (is_operation_in_progress_ w); [done|].
    destruct (OnTargetQueue w); [|done].
    destruct (operation _) as [[[] w1]| |]; [|done..].
    by intros [= <-].
  - intros p w w' H.
    by apply (flag_exec (is_operation_in_progress_ w) p w tt w').
  - intros self w w' H.
    assert (Hp : is_operation_in_progress_ w = true).
    { rewrite Run_eq in H.
      destruct (VerifyIsCurrentQueue w) as [[[] w1]| |] eqn:E; [|done..].
      by apply VerifyIsCurrentQueue_Ok in E as (_ & _ & ?). }
    split; [done|]. by apply (flag_Run true self w tt w').
  - apply reachable_idle.
Qed.

(** ** EnqueueWithDelay *)

Lemma find_timer_id_carries timer_id w :
  Inv w ->
  (find_timer_id timer_id (heap w) (operations_ w) = Ok true <->
     exists op, op ∈ operations_ w /\ carries w op timer_id)
  /\ (find_timer_id timer_id (heap w) (operations_ w) = Ok false <->
        ~ exists op, op ∈ operations_ w /\ carries w op timer_id).
Proof.
  intros HI.
  destruct (find_timer_id_live timer_id (heap w) (operations_ w)) as [b Hb].
  { intros op Hin. destruct (Inv_pending w HI op Hin) as (d & -> & _).
    by eexists. }
  assert (Hyes : find_timer_id timer_id (heap w) (operations_ w) = Ok true ->
            exists op, op ∈ operations_ w /\ carries w op timer_id).
  { intros H. apply find_timer_id_true in H as (op & d & Hin & Hd & Ht).
    exists op. split; [done|]. by exists d. }
  assert (Hno : find_timer_id timer_id (heap w) (operations_ w) = Ok false ->
            ~ exists op, op ∈ operations_ w /\ carries w op timer_id).
  { intros H (op & Hin & d & Hd & Ht).
    rewrite find_timer_id_false in H.
    destruct (H op Hin) as (d' & Hd' & Hne). congruence. }
  rewrite Hb in *. destruct b.
  - split; split; try done. intros Hn. destruct Hn. by apply Hyes.
  - split; split; try done. intros Hex. by destruct (Hno eq_refl).
Qed.

(** C3. [EnqueueWithDelay] fails fatally, on the assertion about multiple
    callbacks, exactly when the scan of the pending list finds an entry
    that carries the timer id; otherwise it appends one new entry, which
    carries that id and is not done, and returns a handle to it. *)
Theorem EnqueueWithDelay_fails_iff (delay : Seconds) (timer_id : TimerId)
  (operation : Operation) (w : World) :
  Inv w ->
  (forall v, EnqueueWithDelay delay timer_id operation w = Fatal v <->
     v = MultipleCallbacks timer_id /\
     exists op, op ∈ operations_ w /\ carries w op timer_id)
  /\ (EnqueueWithDelay delay timer_id operation w = Fatal
        (MultipleCallbacks timer_id) <->
      find_timer_id timer_id (heap w) (operations_ w) = Ok true)
  /\ EnqueueWithDelay delay timer_id operation w <> Undefined
  /\ (~ (exists op, op ∈ operations_ w /\ carries w op timer_id) ->
      exists self w',
        EnqueueWithDelay delay timer_id operation w = Ok (self, w') /\
        operations_ w' = operations_ w ++ [self] /\
        (self ∉ operations_ w) /\
        heap w' = heap w ++
          [{| timer_id_ := timer_id; target_time_ := delay;
              operation_ := operation; done_ := false |}] /\
        heap w' !! data_ self =
          Some {| timer_id_ := timer_id; target_time_ := delay;
                  operation_ := operation; done_ := false |} /\
        timers w' = timers w ++ [(delay, self)] /\
        history w' = history w /\
        Inv w').
Proof.
  intros HI. rewrite EnqueueWithDelay_eq.
  destruct (find_timer_id_carries timer_id w HI) as [Hyes Hno].
  destruct (find_timer_id timer_id (heap w) (operations_ w))
    as [[]| |] eqn:Hfind.
  - assert (Hex : exists op, op ∈ operations_ w /\ carries w op timer_id)
      by by apply Hyes.
    split_and!; try done.
    split; [by intros [= <-] | by intros [-> _]].
  - assert (Hnex : ~ exists op, op ∈ operations_ w /\ carries w op timer_id)
      by by apply Hno.
    split_and!; try done.
    + intros v. split; [done | by intros [_ ?]].
    + intros _. eexists _, _. split; [done|]. simpl.
      split_and!; try done.
      * intros Hin. destruct (Inv_pending w HI _ Hin) as (d & Hd & _).
        simpl in Hd. apply lookup_lt_Some in Hd. lia.
      * by apply list_lookup_middle.
      * by apply Inv_scheduled.
  - by destruct (find_timer_id_not_Fatal _ _ _ _ Hfind).
  - destruct (find_timer_id_live timer_id (heap w) (operations_ w))
      as [b Hb]; [|congruence].
    intros op Hin. destruct (Inv_pending w HI op Hin) as (d & -> & _).
    by eexists.
Qed.

(** ** Cancel *)



(** ** More on the invariant, done flags and the history *)

Lemma Inv_exec p : preserves Inv (exec p).
Proof.
  apply preserves_exec.
  - intros ? ?. by apply Inv_frame.
  - intros. by apply Inv_scheduled.
  - intros. by apply Inv_completed.
  - apply Inv_EnterCheckedOperation.
Qed.

Lemma Inv_Cancel self : preserves Inv (Cancel self).
Proof. apply preserves_Cancel. intros. by apply Inv_completed. Qed.

Lemma Inv_Run self : preserves Inv (Run self).
Proof.
  apply preserves_Run.
  - intros ? ?. by apply Inv_frame.
  - intros. by apply Inv_scheduled.
  - intros. by apply Inv_completed.
  - apply Inv_EnterCheckedOperation.
Qed.

Lemma is_done_invoke a operation : preserves (is_done a) (invoke operation).
Proof.
  destruct operation; simpl; [apply preserves_throw | apply is_done_exec].
Qed.

Lemma is_done_completed_self e self d w :
  heap w !! data_ self = Some d -> is_done (data_ self) (completed e self d w).
Proof.
  intros Hd. exists (set_done d). split; [|done]. simpl.
  apply list_lookup_insert_eq. by eapply lookup_lt_Some.
Qed.

Lemma Cancel_is_done self w w' :
  Cancel self w = Ok (tt, w') -> is_done (data_ self) w'.
Proof.
  rewrite Cancel_eq.
  destruct (VerifyIsCurrentQueue w) as [[[] w1]| |]; [|done..].
  destruct (heap w !! data_ self) as [d|] eqn:Hd; [|done].
  destruct (done_ d) eqn:Hdone; [intros [= <-]; by exists d|].
  destruct (bool_decide _); [|done].
  intros [= <-]. by apply is_done_completed_self.
Qed.

Lemma Run_is_done self w w' :
  Run self w = Ok (tt, w') -> is_done (data_ self) w'.
Proof.
  rewrite Run_eq.
  destruct (VerifyIsCurrentQueue w) as [[[] w1]| |]; [|done..].
  destruct (heap w !! data_ self) as [d|] eqn:Hd; [|done].
  destruct (done_ d) eqn:Hdone; [intros [= <-]; by exists d|].
  destruct (bool_decide _); [|done].
  destruct (is_callable _); [|done].
  apply is_done_invoke. by apply is_done_completed_self.
Qed.

(** A done entry is not pending. *)
Lemma is_done_not_pending self w :
  Inv w -> is_done (data_ self) w -> self ∉ operations_ w.
Proof.
  intros HI (d & Hd & Hdone) Hin.
  destruct (Inv_pending w HI self Hin) as (d' & Hd' & Hdone'). congruence.
Qed.





(** ** Done and dequeued together *)

Lemma Inv_pending_iff_not_done w : Inv w -> pending_iff_not_done w.
Proof.
  intros HI self d Hd. split.
  - intros Hin. destruct (Inv_pending w HI self Hin) as (d' & Hd' & Hdone).
    congruence.
  - intros Hdone. destruct self as [a]. by apply (Inv_not_done w HI a d).
Qed.

(** C5. The done flag is set and the entry leaves the pending list in one
    step: [MarkDone], the only place that sets the flag, returns only after
    [Dequeue] has removed the entry, and [Dequeue] dies when there is
    nothing to remove.  So after [Cancel] or [Run] the entry is done and not
    pending, and "pending exactly when not done" holds in every world the
    program reaches and is kept by every call. *)
Theorem done_and_dequeued_together :
  (forall self w w',
     MarkDone self w = Ok (tt, w') ->
     is_done (data_ self) w' /\ self ∈ operations_ w /\
     (self ∉ operations_ w') /\
     operations_ w' = std_remove self (operations_ w))
  /\ (forall self w,
        Dequeue self w = Fatal NothingDequeued <-> self ∉ operations_ w)
  /\ (forall self w,
        self ∈ operations_ w ->
        Dequeue self w =
          Ok (tt, set_operations (std_remove self (operations_ w)) w))
  /\ (forall self w w',
        Inv w -> Cancel self w = Ok (tt, w') ->
        is_done (data_ self) w' /\ (self ∉ operations_ w') /\ Inv w')
  /\ (forall self w w',
        Inv w -> Run self w = Ok (tt, w') ->
        is_done (data_ self) w' /\ (self ∉ operations_ w') /\ Inv w')
  /\ (forall q, Inv (new_AsyncQueue q))
  /\ (forall p w w', Inv w -> exec p w = Ok (tt, w') -> Inv w')
  /\ (forall a w w', Inv w -> do_action a w = Ok (tt, w') -> Inv w')
  /\ (forall w, Inv w -> pending_iff_not_done w)
  /\ (forall w, reachable w -> pending_iff_not_done w).
Proof.
  split_and!.
  - intros self w w'. rewrite MarkDone_eq.
    destruct (heap w !! data_ self) as [d|] eqn:Hd; [|done].
    destruct (bool_decide_reflect (self ∈ operations_ w)) as [Hin|]; [|done].
    intros [= <-]. split_and!; try done.
    + by apply (is_done_completed_self (Cancelled 0)).
    + simpl. rewrite elem_of_std_remove. by intros [? _].
  - intros self w. rewrite Dequeue_eq.
    by destruct (bool_decide_reflect (self ∈ operations_ w)).
  - intros self w Hin. rewrite Dequeue_eq.
    by rewrite bool_decide_eq_true_2.
  - intros self w w' HI H.
    assert (HI' : Inv w') by exact (Inv_Cancel self w tt w' HI H).
    apply Cancel_is_done in H. split_and!; try done.
    by apply is_done_not_pending.
  - intros self w w' HI H.
    assert (HI' : Inv w') by exact (Inv_Run self w tt w' HI H).
    apply Run_is_done in H. split_and!; try done.
    by apply is_done_not_pending.
  - apply Inv_new.
  - intros p w w' HI H. exact (Inv_exec p w tt w' HI H).
  - intros a w w' HI H. exact (Inv_do_action a w tt w' HI H).
  - apply Inv_pending_iff_not_done.
  - intros w H. by apply Inv_pending_iff_not_done, reachable_Inv.
Qed.

(** ** The body runs after the entry is completed *)


(** ** ContainsDelayedOperationWithTimerId *)

(** C4. Right after a successful [EnqueueWithDelay] with a timer id,
    [ContainsDelayedOperationWithTimerId] answers true for it.  Right after
    the pending entry with that id is cancelled it answers false; right
    after the entry has fired it answers false when no other pending entry
    carries the id (the body of the fired entry may have scheduled the id
    again). *)
Theorem ContainsDelayedOperationWithTimerId_after :
  (forall delay timer_id operation w self w',
     EnqueueWithDelay delay timer_id operation w = Ok (self, w') ->
     ContainsDelayedOperationWithTimerId timer_id w' = Ok (true, w'))
  /\ (forall self d w w',
        Inv w -> heap w !! data_ self = Some d -> done_ d = false ->
        Cancel self w = Ok (tt, w') ->
        ContainsDelayedOperationWithTimerId (timer_id_ d) w'
          = Ok (false, w'))
  /\ (forall self d w w',
        Inv w -> heap w !! data_ self = Some d ->
        Cancel self w = Ok (tt, w') \/ Run self w = Ok (tt, w') ->
        (forall op, op ∈ operations_ w' -> op <> self ->
           ~ carries w' op (timer_id_ d)) ->
        ContainsDelayedOperationWithTimerId (timer_id_ d) w'
          = Ok (false, w')).
Proof.
  assert (Hafter : forall self d w w',
    Inv w -> heap w !! data_ self = Some d ->
    Cancel self w = Ok (tt, w') \/ Run self w = Ok (tt, w') ->
    (forall op, op ∈ operations_ w' -> op <> self ->
       ~ carries w' op (timer_id_ d)) ->
    ContainsDelayedOperationWithTimerId (timer_id_ d) w' = Ok (false, w')).
  { intros self d w w' HI Hd Hcall Hother.
    assert (Inv w' /\ is_done (data_ self) w') as [HI' Hdone'].
    { destruct Hcall as [H|H].
      - split; [exact (Inv_Cancel self w tt w' HI H)|].
        by apply Cancel_is_done in H.
      - split; [exact (Inv_Run self w tt w' HI H)|].
        by apply Run_is_done in H. }
    assert (Hfind : find_timer_id (timer_id_ d) (heap w') (operations_ w')
                    = Ok false).
    { apply (find_timer_id_carries (timer_id_ d) w' HI').
      intros (op & Hin & Hc). apply (Hother op Hin); [|done].
      intros ->. by apply (is_done_not_pending self w'). }
    unfold ContainsDelayedOperationWithTimerId. by rewrite Hfind. }
  split_and!; [| |exact Hafter].
  - intros delay timer_id operation w self w'.
    rewrite EnqueueWithDelay_eq.
    destruct (find_timer_id timer_id (heap w) (operations_ w))
      as [[]| |] eqn:Hfind; try done.
    intros [= <- <-]. rewrite find_timer_id_false in Hfind.
    unfold ContainsDelayedOperationWithTimerId. simpl.
    assert (Hscan : forall ops,
      (forall op, op ∈ ops ->
         exists d, heap w !! data_ op = Some d /\ timer_id_ d <> timer_id) ->
      find_timer_id timer_id
        (heap w ++ [{| timer_id_ := timer_id; target_time_ := delay;
                       operation_ := operation; done_ := false |}])
        (ops ++ [{| data_ := length (heap w) |}]) = Ok true).
    { induction ops as [|op ops IH]; intros Hall; simpl.
      - rewrite list_lookup_middle by done. simpl.
        by rewrite Nat.eqb_refl.
      - destruct (Hall op (list_elem_of_here _ _)) as (d & Hd & Hne).
        rewrite (lookup_app_l_Some _ _ _ _ Hd).
        apply Nat.eqb_neq in Hne. rewrite Hne. apply IH.
        intros op' Hin. apply Hall. by apply list_elem_of_further. }
    by rewrite (Hscan _ Hfind).
  - intros self d w w' HI Hd Hdone H.
    apply (Hafter self d w w' HI Hd); [by left|].
    intros op Hin Hne (d1 & Hd1 & Ht).
    rewrite Cancel_eq in H.
    destruct (VerifyIsCurrentQueue w) as [[[] w1]| |]; [|done..].
    rewrite Hd, Hdone in H.
    destruct (bool_decide_reflect (self ∈ operations_ w)) as [Hself|]; [|done].
    injection H as <-. simpl in *.
    apply elem_of_std_remove in Hin as [_ Hin].
    rewrite list_lookup_insert_ne in Hd1.
    + apply Hne. apply (Inv_timer_ids w HI op self (timer_id_ d)); try done.
      * by exists d1.
      * by exists d.
    + intros Heq. apply Hne. symmetry. by apply handle_eq.
Qed.





Lemma in_checked_operation_EnterCheckedOperation operation :
  preserves in_checked_operation (EnterCheckedOperation operation).
Proof.
  intros w [] w' [_ Hp]. by rewrite EnterCheckedOperation_eq, Hp.
Qed.

Lemma in_checked_operation_Run self :
  preserves in_checked_operation (Run self).
Proof.
  apply preserves_Run; try done.
  intros. apply in_checked_operation_EnterCheckedOperation.
Qed.

Lemma in_checked_operation_Cancel self :
  preserves in_checked_operation (Cancel self).
Proof. by apply preserves_Cancel. Qed.


(** ** At most one invocation *)


(** ** Examples *)

Lemma Inv_world_scheduled : Inv world_scheduled.
Proof. apply Inv_scheduled; [apply Inv_new | done]. Qed.

Lemma Inv_world_in_operation : Inv world_in_operation.
Proof. by apply (Inv_frame world_scheduled), Inv_world_scheduled. Qed.



Lemma EnqueueWithDelay_fails_iff_witness :
  EnqueueWithDelay 1%Z 7 EmptyFunction world_scheduled
    = Fatal (MultipleCallbacks 7) /\
  exists self w',
    EnqueueWithDelay 1%Z 8 EmptyFunction world_scheduled = Ok (self, w') /\
    operations_ w' = [{| data_ := 0 |}; self].
Proof.
  split.
  - apply (EnqueueWithDelay_fails_iff 1%Z 7 EmptyFunction world_scheduled
             Inv_world_scheduled).
    reflexivity.
  - destruct (EnqueueWithDelay_fails_iff 1%Z 8 EmptyFunction world_scheduled
                Inv_world_scheduled) as (_ & _ & _ & H).
    destruct H as (self & w' & He & Hops & _).
    + intros (op & Hin & d & Hd & Ht).
      apply list_elem_of_singleton in Hin. subst op.
      injection Hd as <-. discriminate Ht.
    + exists self, w'. split; [exact He | exact Hops].
Defined.

Lemma ContainsDelayedOperationWithTimerId_after_witness :
  ContainsDelayedOperationWithTimerId 7 world_scheduled
    = Ok (true, world_scheduled) /\
  exists w',
    Cancel {| data_ := 0 |} world_in_operation = Ok (tt, w') /\
    ContainsDelayedOperationWithTimerId 7 w' = Ok (false, w').
Proof.
  destruct ContainsDelayedOperationWithTimerId_after as (H1 & H2 & _).
  split.
  - apply (H1 5%Z 7 (Lambda reschedule_body)
             (new_AsyncQueue firestore_queue) {| data_ := 0 |}).
    reflexivity.
  - eexists. split; [vm_compute; reflexivity|].
    apply (H2 {| data_ := 0 |}
             scheduled_data
             world_in_operation _ Inv_world_in_operation);
      reflexivity.
Defined.

Lemma done_and_dequeued_together_witness :
  exists w,
    run steps (new_AsyncQueue firestore_queue) = Ok (tt, w) /\
    pending_iff_not_done w /\
    Dequeue {| data_ := 0 |} w = Fatal NothingDequeued.
Proof.
  destruct done_and_dequeued_together
    as (_ & Hdeq & _ & _ & _ & _ & _ & _ & _ & Hreach).
  eexists. split; [vm_compute; reflexivity|]. split.
  - apply Hreach. exists firestore_queue, steps. vm_compute. reflexivity.
  - apply Hdeq. simpl. apply not_elem_of_nil.
Defined.


Lemma VerifyIsCurrentQueue_fails_iff_witness :
  VerifyIsCurrentQueue world_in_operation = Ok (tt, world_in_operation) /\
  VerifyIsCurrentQueue world_scheduled = Fatal OutsideCheckedOperation /\
  VerifyIsCurrentQueue (set_current_queue main_queue world_in_operation)
    = Fatal WrongDispatchQueue.
Proof.
  split; [|split].
  - destruct (VerifyIsCurrentQueue_fails_iff world_in_operation)
      as (_ & H & _).
    apply H. split; reflexivity.
  - destruct (VerifyIsCurrentQueue_fails_iff world_scheduled)
      as (_ & _ & _ & _ & H & _).
    apply H; reflexivity.
  - destruct (VerifyIsCurrentQueue_fails_iff
                (set_current_queue main_queue world_in_operation))
      as (_ & _ & _ & H & _).
    apply H. reflexivity.
Defined.

Lemma EnterCheckedOperation_flag_witness :
  EnterCheckedOperation (ret tt) world_in_operation
    = Fatal OperationInProgress /\
  EnterCheckedOperation (ret tt) world_scheduled = Ok (tt, world_scheduled) /\
  exists w,
    run steps (new_AsyncQueue firestore_queue) = Ok (tt, w) /\
    is_operation_in_progress_ w = false.
Proof.
  destruct EnterCheckedOperation_flag as (H1 & _ & H3 & _ & _ & _ & H7).
  split; [|split].
  - apply H1. reflexivity.
  - rewrite H3; reflexivity.
  - eexists. split; [vm_compute; reflexivity|].
    apply H7. exists firestore_queue, steps. vm_compute. reflexivity.
Defined.



(** When the body of the fired entry schedules its timer id again, the id is
    pending again once [Run] has returned. *)
Example Run_reschedules_same_timer_id :
  exists w',
    Run {| data_ := 0 |} world_in_operation = Ok (tt, w') /\
    operations_ w' = [{| data_ := 1 |}] /\
    ContainsDelayedOperationWithTimerId 7 w' = Ok (true, w').
Proof.
  eexists. split; [vm_compute; reflexivity|]. split; reflexivity.
Qed.

(** * Further properties *)

(** ** Firing an entry *)





(** ** Timers of entries that are done *)

Lemma OnTargetQueue_native w :
  current_queue w = native_handle w -> OnTargetQueue w = true.
Proof.
  intros H. unfold OnTargetQueue, GetCurrentQueueLabel. rewrite H.
  apply String.eqb_refl.
Qed.


(** ** Cancel after the entry is done *)

(** X3. After [Cancel] or [Run] has returned for an entry, [Cancel] on any
    handle of that entry returns and changes nothing; in particular
    [Cancel] is idempotent, and cancelling an entry that has fired is
    harmless. *)
Theorem Cancel_after_done_is_noop (self : DelayedOperation) (w w' : World) :
  Cancel self w = Ok (tt, w') \/ Run self w = Ok (tt, w') ->
  Cancel self w' = Ok (tt, w').
Proof.
  intros H.
  assert (Hin : in_checked_operation w).
  { destruct H as [H|H]; [rewrite Cancel_eq in H|rewrite Run_eq in H];
      destruct (VerifyIsCurrentQueue w) as [[[] w1]| |] eqn:E;
      try done; by apply VerifyIsCurrentQueue_Ok in E as (_ & ? & ?). }
  assert (Hin' : in_checked_operation w').
  { destruct H as [H|H].
    - exact (in_checked_operation_Cancel self w tt w' Hin H).
    - exact (in_checked_operation_Run self w tt w' Hin H). }
  assert (Hdone : is_done (data_ self) w').
  { destruct H as [H|H]; [by apply Cancel_is_done in H|].
    by apply Run_is_done in H. }
  destruct Hin' as [Hq Hp]. destruct Hdone as (d & Hd & Hdone).
  by rewrite Cancel_eq, VerifyIsCurrentQueue_eq, Hq, Hp, Hd, Hdone.
Qed.

(** ** Empty operations *)


(** ** Pending entries and their timers *)












(** ** Operations run by the queue pass the lane check *)

Lemma passes_bind {A B} (m : M A) (k : A -> M B) w :
  passes_lane_check (m w) ->
  (forall a w1, m w = Ok (a, w1) -> passes_lane_check (k a w1)) ->
  passes_lane_check (bind m k w).
Proof.
  intros Hm Hk. unfold bind.
  destruct (m w) as [[a w1]| |] eqn:E; [by apply Hk | |by intros v' [=]].
  intros v' [= <-]. by apply Hm.
Qed.

Lemma passes_other {A} (v : Violation) :
  ~ lane_violation v -> passes_lane_check (@Fatal A v).
Proof. intros Hv v' [= <-]. done. Qed.

Lemma passes_Ok {A} (a : A) : passes_lane_check (Ok a).
Proof. intros v [=]. Qed.

Lemma passes_Undefined {A} : passes_lane_check (@Undefined A).
Proof. intros v [=]. Qed.

Lemma in_checked_operation_dispatched l w :
  in_checked_operation w -> in_checked_operation (set_dispatched l w).
Proof. done. Qed.

Lemma passes_Cancel self w :
  in_checked_operation w -> passes_lane_check (Cancel self w).
Proof.
  intros [Hq Hp]. rewrite Cancel_eq, VerifyIsCurrentQueue_eq, Hq, Hp.
  destruct (heap w !! data_ self) as [d|]; [|apply passes_Undefined].
  destruct (done_ d); [apply passes_Ok|].
  destruct (bool_decide _); [apply passes_Ok|].
  apply passes_other. by intros [|].
Qed.

Lemma passes_EnqueueWithDelay delay timer_id operation w :
  passes_lane_check (EnqueueWithDelay delay timer_id operation w).
Proof.
  rewrite EnqueueWithDelay_eq.
  destruct (find_timer_id _ _ _) as [[]| |] eqn:E.
  - apply passes_other. by intros [|].
  - apply passes_Ok.
  - by destruct (find_timer_id_not_Fatal _ _ _ _ E).
  - apply passes_Undefined.
Qed.

Lemma passes_exec p w :
  in_checked_operation w -> passes_lane_check (exec p w).
Proof.
  revert w. induction p using Prog_mut
    with (P0 := fun operation => forall w,
            in_checked_operation w ->
            passes_lane_check (invoke operation w));
    intros w Hin; simpl.
  - apply passes_Ok.
  - apply passes_bind.
    + rewrite Enqueue_eq. destruct (_ && _); [|apply passes_Ok].
      apply passes_other. by intros [|].
    + intros [] w1 H. apply IHp0.
      by apply (preserves_Enqueue in_checked_operation
                  in_checked_operation_dispatched operation w tt w1).
  - apply passes_bind; [apply passes_Ok|].
    intros [] w1 [= <-]. by apply IHp0.
  - apply passes_bind; [apply passes_EnqueueWithDelay|].
    intros self w1 E. apply H.
    rewrite EnqueueWithDelay_eq in E.
    destruct (find_timer_id _ _ _) as [[]| |]; try done.
    by injection E as <- <-.
  - apply passes_bind.
    + unfold ContainsDelayedOperationWithTimerId.
      destruct (find_timer_id _ _ _) eqn:E;
        [apply passes_Ok | | apply passes_Undefined].
      by destruct (find_timer_id_not_Fatal _ _ _ _ E).
    + intros b w1 E.
      apply ContainsDelayedOperationWithTimerId_Ok in E as [-> _].
      by apply H.
  - apply passes_bind.
    + destruct Hin as [Hq Hp].
      rewrite VerifyIsCurrentQueue_eq, Hq, Hp. apply passes_Ok.
    + intros [] w1 E. apply VerifyIsCurrentQueue_Ok in E as [-> _].
      by apply IHp.
  - apply passes_bind.
    + destruct Hin as [Hq Hp]. rewrite EnterCheckedOperation_eq, Hp.
      apply passes_other. by intros [|].
    + intros [] w1 E. apply IHp0.
      exact (in_checked_operation_EnterCheckedOperation _ w tt w1 Hin E).
  - apply passes_bind; [by apply passes_Cancel|].
    intros [] w1 E. apply IHp.
    exact (in_checked_operation_Cancel self w tt w1 Hin E).
  - apply passes_bind; [apply passes_Ok|].
    intros [] w1 [= <-]. by apply IHp.
  - apply passes_other. by intros [|].
  - by apply IHp.
Qed.

Lemma passes_invoke operation w :
  in_checked_operation w -> passes_lane_check (invoke operation w).
Proof.
  destruct operation; simpl; [|apply passes_exec].
  intros _. apply passes_other. by intros [|].
Qed.

Lemma passes_Run self w :
  in_checked_operation w -> passes_lane_check (Run self w).
Proof.
  intros [Hq Hp]. rewrite Run_eq, VerifyIsCurrentQueue_eq, Hq, Hp.
  destruct (heap w !! data_ self) as [d|]; [|apply passes_Undefined].
  destruct (done_ d); [apply passes_Ok|].
  destruct (bool_decide _); [|apply passes_other; by intros [|]].
  destruct (is_callable _); [|apply passes_other; by intros [|]].
  by apply passes_invoke.
Qed.

Lemma passes_EnterCheckedOperation (operation : M unit) w :
  is_operation_in_progress_ w = false -> OnTargetQueue w = true ->
  (forall w0, in_checked_operation w0 -> passes_lane_check (operation w0)) ->
  passes_lane_check (EnterCheckedOperation operation w).
Proof.
  intros Hp Hq Hop. rewrite EnterCheckedOperation_eq, Hp, Hq.
  assert (H : passes_lane_check (operation (set_in_progress true w)))
    by by apply Hop.
  destruct (operation _) as [[[] w1]| |]; [apply passes_Ok|done|done].
Qed.

(** X6. What the idle queue runs never dies on the lane check: a block of
    [Dispatch] and a timer of [Schedule] enter the checked operation on the
    target queue, so every [VerifyIsCurrentQueue], also those of [Cancel]
    and [Run], made by the operation and by the client code it calls
    succeeds. *)
Theorem queue_run_passes_lane_check (w : World) :
  is_operation_in_progress_ w = false ->
  (forall v, run_block w = Fatal v ->
     v <> WrongDispatchQueue /\ v <> OutsideCheckedOperation)
  /\ (forall i v, fire_timer i w = Fatal v ->
        v <> WrongDispatchQueue /\ v <> OutsideCheckedOperation).
Proof.
  intros Hp.
  assert (Hsplit : forall v, ~ lane_violation v ->
            v <> WrongDispatchQueue /\ v <> OutsideCheckedOperation).
  { intros v Hv. split; intros ->; apply Hv; [by left | by right]. }
  split.
  - intros v H. apply Hsplit. revert v H.
    change (passes_lane_check (run_block w)).
    unfold run_block. cbv [bind get modify].
    destruct (dispatched w) as [|operation rest]; [apply passes_Ok|].
    apply passes_EnterCheckedOperation;
      [done | by apply OnTargetQueue_native |].
    intros w0 Hin. destruct operation; simpl;
      [by apply passes_invoke | by apply passes_Run].
  - intros i v H. apply Hsplit. revert v H.
    change (passes_lane_check (fire_timer i w)).
    unfold fire_timer. cbv [bind get modify].
    destruct (timers w !! i) as [[delay self]|]; [|apply passes_Ok].
    apply passes_EnterCheckedOperation;
      [done | by apply OnTargetQueue_native |].
    intros w0 Hin. by apply passes_Run.
Qed.

(** ** Blocks and timers are only appended *)

(** A property kept when a block is appended, an entry scheduled, an entry
    completed and a checked operation entered and left is kept by all
    client code and by [Run]. *)
Section Appending.
Variable P : World -> Prop.
Hypothesis P_Dispatch : forall operation w,
P w -> P (set_dispatched (dispatched w ++ [operation]) w).
Hypothesis P_scheduled : forall delay timer_id operation w,
P w -> find_timer_id timer_id (heap w) (operations_ w) = Ok false ->
P (scheduled delay timer_id operation w).
Hypothesis P_completed : forall e self d w,
P w -> heap w !! data_ self = Some d -> done_ d = false ->
event_data e = data_ self ->
P (completed e self d w).
Hypothesis P_EnterCheckedOperation : forall operation,
preserves P operation -> preserves P (EnterCheckedOperation operation).



End Appending.





(** ** What an entry holds *)





(** ** The scan for a timer id *)

(** X9. In a world that satisfies the invariant, so in every world the
    program reaches, [ContainsDelayedOperationWithTimerId] always answers,
    changes nothing, and answers true exactly when a pending entry carries
    the id; entries that are done do not count, and at most one pending
    entry carries a given id. *)
Theorem ContainsDelayedOperationWithTimerId_spec (timer_id : TimerId)
  (w : World) :
  Inv w ->
  exists found,
    ContainsDelayedOperationWithTimerId timer_id w = Ok (found, w) /\
    (found = true <->
       exists op d, op ∈ operations_ w /\
         heap w !! data_ op = Some d /\
         timer_id_ d = timer_id /\ done_ d = false) /\
    (forall op1 op2,
       op1 ∈ operations_ w -> op2 ∈ operations_ w ->
       carries w op1 timer_id -> carries w op2 timer_id -> op1 = op2).
Proof.
  intros HI.
  destruct (find_timer_id_carries timer_id w HI) as [Hyes Hno].
  assert (Hequiv : (exists op, op ∈ operations_ w /\ carries w op timer_id)
            <-> exists op d, op ∈ operations_ w /\
                  heap w !! data_ op = Some d /\
                  timer_id_ d = timer_id /\ done_ d = false).
  { split.
    - intros (op & Hin & d & Hd & Ht). exists op, d. split_and!; try done.
      destruct (Inv_pending w HI op Hin) as (d' & Hd' & Hdone). congruence.
    - intros (op & d & Hin & Hd & Ht & _). exists op. split; [done|].
      by exists d. }
  unfold ContainsDelayedOperationWithTimerId.
  destruct (find_timer_id timer_id (heap w) (operations_ w))
    as [[]| |] eqn:Hfind.
  - exists true. split_and!; [done| |].
    + split; [intros _; by apply Hequiv, Hyes | done].
    + intros op1 op2. apply (Inv_timer_ids w HI).
  - exists false. split_and!; [done| |].
    + split; [done|]. intros Hex. apply Hequiv in Hex.
      by destruct (proj1 Hno eq_refl).
    + intros op1 op2. apply (Inv_timer_ids w HI).
  - by destruct (find_timer_id_not_Fatal _ _ _ _ Hfind).
  - destruct (find_timer_id_live timer_id (heap w) (operations_ w))
      as [b Hb]; [|congruence].
    intros op Hin. destruct (Inv_pending w HI op Hin) as (d & -> & _).
    by eexists.
Qed.

(** ** Who may call what *)

(** X10. [EnqueueWithDelay] checks neither the queue of the caller nor the
    flag: called from any queue, inside or outside a checked operation, it
    fails or succeeds alike, returns the same handle and makes the same
    change. *)
Theorem EnqueueWithDelay_from_anywhere (delay : Seconds)
  (timer_id : TimerId) (operation : Operation) (q : dispatch_queue)
  (b : bool) (w : World) :
  EnqueueWithDelay delay timer_id operation
    (set_current_queue q (set_in_progress b w)) =
  match EnqueueWithDelay delay timer_id operation w with
  | Ok (self, w') => Ok (self, set_current_queue q (set_in_progress b w'))
  | Fatal v => Fatal v
  | Undefined => Undefined
  end.
Proof.
  rewrite !EnqueueWithDelay_eq. simpl.
  by destruct (find_timer_id _ _ _) as [[]| |].
Qed.

(** X11. [Cancel] is only for operations the queue runs: in a world the
    program reaches, application code that calls [Cancel] itself, from
    whatever queue and on whatever handle, dies on the lane check, on the
    wrong queue or, on the queue itself, outside a checked operation. *)
Theorem Cancel_outside_operation_dies (w : World) :
  reachable w ->
  forall q self k,
    do_action (ClientCode q (CallCancel self k)) w =
      Fatal (if OnTargetQueue (set_current_queue q w)
             then OutsideCheckedOperation else WrongDispatchQueue).
Proof.
  intros Hr q self k. apply reachable_idle in Hr. simpl.
  cbv [bind modify]. rewrite Cancel_eq, VerifyIsCurrentQueue_eq. simpl.
  rewrite Hr. by destruct (OnTargetQueue _).
Qed.

(** X12. What is enqueued is what is run: when the application enqueues an
    operation on a queue with no block waiting and the queue then runs its
    oldest block, the effect is that of calling the operation inside a
    checked operation on the target queue, the block being used up. *)
Theorem Enqueue_then_run_block (q : dispatch_queue) (operation : Operation)
  (w : World) :
  is_operation_in_progress_ w = false ->
  dispatched w = [] ->
  run [ClientCode q (CallEnqueue operation Return_); RunBlock] w =
  match EnterCheckedOperation (invoke operation)
          (set_current_queue (native_handle w) w) with
  | Ok (_, w') => Ok (tt, w')
  | Fatal v => Fatal v
  | Undefined => Undefined
  end.
Proof.
  intros Hp Hd. cbn [run do_action exec].
  cbv [bind modify ret]. rewrite Enqueue_eq.
  cbn [is_operation_in_progress_ set_current_queue]. rewrite Hp.
  cbn [andb dispatched set_current_queue]. rewrite Hd. cbn [app].
  unfold run_block. cbv [bind get modify].
  cbn [dispatched set_dispatched call].
  assert (Hw : set_current_queue (native_handle
                 (set_dispatched [FromClient operation]
                    (set_current_queue q w)))
                 (set_dispatched []
                    (set_dispatched [FromClient operation]
                       (set_current_queue q w)))
               = set_current_queue (native_handle w) w).
  { destruct w. simpl in *. by subst. }
  rewrite Hw.
  by destruct (EnterCheckedOperation _ _) as [[[] w']| |].
Qed.

(** ** Examples for the further properties *)



Lemma Cancel_after_done_is_noop_witness :
  exists w',
    Cancel {| data_ := 0 |} world_in_operation = Ok (tt, w') /\
    Cancel {| data_ := 0 |} w' = Ok (tt, w').
Proof.
  eexists. split; [vm_compute; reflexivity|].
  apply (Cancel_after_done_is_noop {| data_ := 0 |} world_in_operation).
  left. vm_compute. reflexivity.
Defined.



Lemma queue_run_passes_lane_check_witness :
  is_operation_in_progress_ world_scheduled = false /\
  forall i v, fire_timer i world_scheduled = Fatal v ->
    v <> WrongDispatchQueue /\ v <> OutsideCheckedOperation.
Proof.
  split; [reflexivity|].
  apply (queue_run_passes_lane_check world_scheduled eq_refl).
Defined.



Lemma ContainsDelayedOperationWithTimerId_spec_witness :
  exists found,
    ContainsDelayedOperationWithTimerId 7 world_scheduled
      = Ok (found, world_scheduled) /\
    (found = true <->
       exists op d, op ∈ operations_ world_scheduled /\
         heap world_scheduled !! data_ op = Some d /\
         timer_id_ d = 7 /\ done_ d = false).
Proof.
  destruct (ContainsDelayedOperationWithTimerId_spec 7 world_scheduled
              Inv_world_scheduled) as (found & H1 & H2 & _).
  exists found. split; [exact H1 | exact H2].
Defined.

Lemma Cancel_outside_operation_dies_witness :
  do_action (ClientCode main_queue (CallCancel {| data_ := 0 |} Return_))
    world_scheduled = Fatal WrongDispatchQueue /\
  do_action (ClientCode firestore_queue (CallCancel {| data_ := 0 |} Return_))
    world_scheduled = Fatal OutsideCheckedOperation.
Proof.
  assert (Hr : reachable world_scheduled).
  { exists firestore_queue,
      [ClientCode firestore_queue
         (CallEnqueueWithDelay 5%Z 7 (Lambda reschedule_body)
            (fun _ => Return_))].
    vm_compute. reflexivity. }
  split.
  - exact (Cancel_outside_operation_dies world_scheduled Hr main_queue
             {| data_ := 0 |} Return_).
  - exact (Cancel_outside_operation_dies world_scheduled Hr firestore_queue
             {| data_ := 0 |} Return_).
Defined.

Lemma Enqueue_then_run_block_witness :
  exists w',
    run [ClientCode main_queue (CallEnqueue (Lambda Return_) Return_);
         RunBlock] world_scheduled = Ok (tt, w') /\
    dispatched w' = [].
Proof.
  eexists. split.
  - rewrite (Enqueue_then_run_block main_queue (Lambda Return_)
               world_scheduled eq_refl eq_refl).
    vm_compute. reflexivity.
  - reflexivity.
Defined.
